(** * btils: a shallow embedding of threader.go, the UID helpers and json.go

    The worker pool of [threader.go] is modelled as an interleaving
    semantics: every atomic action of a goroutine (an [atomic.AddInt64],
    a channel send, a channel receive, a callback returning, [close]) is
    one step of [step] on a configuration holding the pool object and
    the goroutines that act on it.  Go's atomics and channels are
    sequentially consistent, so interleavings cover every execution. *)

From Stdlib Require Import ZArith String Ascii Lia.
From stdpp Require Import base list relations.

Open Scope Z_scope.

(** ** Go runtime pieces *)

(** The outcome of a Go statement that may panic. *)
Inductive Go (A : Type) : Type :=
| Ok (a : A)
| Panic (msg : string).
Arguments Ok {A} a.
Arguments Panic {A} msg.

(** [int64] arithmetic: two's complement wrap-around. *)
Definition wrap64 (z : Z) : Z := (z + 2 ^ 63) mod 2 ^ 64 - 2 ^ 63.

(** [atomic.AddInt64(&x, d)]: the new value of [x]. *)
Definition AddInt64 (x d : Z) : Z := wrap64 (x + d).

(** [atomic.LoadInt64(&x)]. *)
Definition LoadInt64 (x : Z) : Z := x.

Section Threader.
Variable T : Type.

(** A buffered Go channel: its buffered elements in FIFO order, its
    capacity and whether it has been closed. *)
Record chan := mkChan {
  buf : list T;
  cap : Z;
  closed : bool
}.

(** [make(chan T, n)]: panics when [n] is negative (allocations beyond
    the memory limit are not modelled). *)
Definition makeChan (n : Z) : Go chan :=
  if n <? 0 then Panic "makechan: size out of range"
  else Ok (mkChan [] n false).

(** [close(ch)]. *)
Definition closeChan (ch : chan) : Go chan :=
  if closed ch then Panic "close of closed channel"
  else Ok (mkChan (buf ch) (cap ch) true).

(** [type ThreaderManager[T any] struct]. *)
Record ThreaderManager := mkTM {
  channel : chan;
  workers : Z;
  callback : T -> unit;
  counter : Z
}.

(** [NewThreadManager(workers, callback)]. *)
Definition NewThreadManager (workers : Z) (callback : T -> unit)
    : Go ThreaderManager :=
  match makeChan workers with
  | Panic m => Panic m
  | Ok ch => Ok (mkTM ch workers callback 0)
  end.

(** [IsDone()]: [atomic.LoadInt64(&tm.counter) == 0]. *)
Definition IsDone (tm : ThreaderManager) : bool :=
  LoadInt64 (counter tm) =? 0.

(** [Stop()]: [close(tm.channel)]. *)
Definition Stop (tm : ThreaderManager) : Go ThreaderManager :=
  match closeChan (channel tm) with
  | Panic m => Panic m
  | Ok ch => Ok (mkTM ch (workers tm) (callback tm) (counter tm))
  end.

(** First half of [Feed(in)]: [atomic.AddInt64(&tm.counter, 1)]. *)
Definition feedInc (tm : ThreaderManager) : ThreaderManager :=
  mkTM (channel tm) (workers tm) (callback tm) (AddInt64 (counter tm) 1).

(** The worker goroutine's decrement [atomic.AddInt64(&tm.counter, -1)]. *)
Definition workerDec (tm : ThreaderManager) : ThreaderManager :=
  mkTM (channel tm) (workers tm) (callback tm) (AddInt64 (counter tm) (-1)).

(** Replacing the channel (after a send or a receive). *)
Definition setChannel (tm : ThreaderManager) (ch : chan) : ThreaderManager :=
  mkTM ch (workers tm) (callback tm) (counter tm).

(** The program point of a worker goroutine started by [Start()]:
    waiting in [for in := range tm.channel], running [tm.callback(in)],
    about to run the decrement after the callback returned, or exited
    from the loop once the channel is closed and drained. *)
Inductive wstate :=
| WIdle
| WRun (x : T)
| WDec (x : T)
| WExit.

(** A configuration: the pool, its worker goroutines, the [Feed] calls
    that did their increment and are at the send [tm.channel <- in]
    (one goroutine each, so any of them may send next), whether a
    panic has crashed the process, and the histories of the program's
    observable events: [fed] (increments of [Feed], in order), [sent]
    (completed sends), [dequeued] (receives, i.e. callback
    invocations), [completed] (callback returns). *)
Record Config := mkConfig {
  tm : ThreaderManager;
  goroutines : list wstate;
  sending : list T;
  crashed : bool;
  fed : list T;
  sent : list T;
  dequeued : list T;
  completed : list T
}.

(** The configuration right after [NewThreadManager] returned [tm0]. *)
Definition initConfig (tm0 : ThreaderManager) : Config :=
  mkConfig tm0 [] [] false [] [] [] [].

Definition crash (c : Config) : Config :=
  mkConfig (tm c) (goroutines c) (sending c) true
    (fed c) (sent c) (dequeued c) (completed c).

(** One atomic action of some goroutine. *)
Inductive step : Config -> Config -> Prop :=
| step_start c :
    (* [Start()]: [for i := 0; i < tm.workers; i++ { go func() ... }] *)
    crashed c = false ->
    step c (mkConfig (tm c)
              (goroutines c ++ replicate (Z.to_nat (workers (tm c))) WIdle)
              (sending c) false (fed c) (sent c) (dequeued c) (completed c))
| step_feed_inc c x :
    (* a [Feed(x)] call does [atomic.AddInt64(&tm.counter, 1)] *)
    crashed c = false ->
    step c (mkConfig (feedInc (tm c)) (goroutines c) (sending c ++ [x]) false
              (fed c ++ [x]) (sent c) (dequeued c) (completed c))
| step_feed_send c i x :
    (* the pending send [tm.channel <- in] of one [Feed] call goes
       through: the channel is open and its buffer has room *)
    crashed c = false ->
    sending c !! i = Some x ->
    closed (channel (tm c)) = false ->
    Z.of_nat (length (buf (channel (tm c)))) < cap (channel (tm c)) ->
    step c (mkConfig
              (setChannel (tm c) (mkChan (buf (channel (tm c)) ++ [x])
                                   (cap (channel (tm c))) false))
              (goroutines c) (delete i (sending c)) false
              (fed c) (sent c ++ [x]) (dequeued c) (completed c))
| step_feed_send_closed c i x :
    (* a send on a closed channel panics *)
    crashed c = false ->
    sending c !! i = Some x ->
    closed (channel (tm c)) = true ->
    step c (crash c)
| step_recv c i x rest :
    (* an idle worker receives the oldest buffered item and calls
       [tm.callback(in)] *)
    crashed c = false ->
    goroutines c !! i = Some WIdle ->
    buf (channel (tm c)) = x :: rest ->
    step c (mkConfig
              (setChannel (tm c) (mkChan rest (cap (channel (tm c)))
                                   (closed (channel (tm c)))))
              (<[i := WRun x]> (goroutines c)) (sending c) false
              (fed c) (sent c) (dequeued c ++ [x]) (completed c))
| step_exit c i :
    (* the [range] loop ends once the channel is closed and drained *)
    crashed c = false ->
    goroutines c !! i = Some WIdle ->
    buf (channel (tm c)) = [] ->
    closed (channel (tm c)) = true ->
    step c (mkConfig (tm c) (<[i := WExit]> (goroutines c)) (sending c) false
              (fed c) (sent c) (dequeued c) (completed c))
| step_return c i x :
    (* [tm.callback(in)] returns *)
    crashed c = false ->
    goroutines c !! i = Some (WRun x) ->
    step c (mkConfig (tm c) (<[i := WDec x]> (goroutines c)) (sending c) false
              (fed c) (sent c) (dequeued c) (completed c ++ [x]))
| step_dec c i x :
    (* [atomic.AddInt64(&tm.counter, -1)], back to the [range] loop *)
    crashed c = false ->
    goroutines c !! i = Some (WDec x) ->
    step c (mkConfig (workerDec (tm c)) (<[i := WIdle]> (goroutines c))
              (sending c) false (fed c) (sent c) (dequeued c) (completed c))
| step_stop c tm' :
    (* [Stop()] on an open channel *)
    crashed c = false ->
    Stop (tm c) = Ok tm' ->
    step c (mkConfig tm' (goroutines c) (sending c) false
              (fed c) (sent c) (dequeued c) (completed c))
| step_stop_panic c m :
    (* [Stop()] on a closed channel panics *)
    crashed c = false ->
    Stop (tm c) = Panic m ->
    step c (crash c).

(** Configurations reachable from a pool returned by [NewThreadManager]. *)
Definition reachable (c : Config) : Prop :=
  exists n cb tm0, NewThreadManager n cb = Ok tm0 /\ rtc step (initConfig tm0) c.

(** An executable scheduler: the goroutine that acts next, chosen by
    the caller, and the action it performs; [None] when that action is
    not enabled. *)
Inductive choice :=
| CStart
| CFeed (x : T)
| CSend (i : nat)
| CRecv (i : nat)
| CExit (i : nat)
| CReturn (i : nat)
| CDec (i : nat)
| CStop.

Definition exec1 (c : Config) (ch : choice) : option Config :=
  if crashed c then None else
  match ch with
  | CStart =>
      Some (mkConfig (tm c)
              (goroutines c ++ replicate (Z.to_nat (workers (tm c))) WIdle)
              (sending c) false (fed c) (sent c) (dequeued c) (completed c))
  | CFeed x =>
      Some (mkConfig (feedInc (tm c)) (goroutines c) (sending c ++ [x]) false
              (fed c ++ [x]) (sent c) (dequeued c) (completed c))
  | CSend i =>
      match sending c !! i with
      | None => None
      | Some x =>
          if closed (channel (tm c)) then Some (crash c)
          else if Z.of_nat (length (buf (channel (tm c)))) <? cap (channel (tm c))
          then Some (mkConfig
              (setChannel (tm c) (mkChan (buf (channel (tm c)) ++ [x])
                                   (cap (channel (tm c))) false))
              (goroutines c) (delete i (sending c)) false
              (fed c) (sent c ++ [x]) (dequeued c) (completed c))
          else None
      end
  | CRecv i =>
      match goroutines c !! i, buf (channel (tm c)) with
      | Some WIdle, x :: rest =>
          Some (mkConfig
              (setChannel (tm c) (mkChan rest (cap (channel (tm c)))
                                   (closed (channel (tm c)))))
              (<[i := WRun x]> (goroutines c)) (sending c) false
              (fed c) (sent c) (dequeued c ++ [x]) (completed c))
      | _, _ => None
      end
  | CExit i =>
      match goroutines c !! i, buf (channel (tm c)) with
      | Some WIdle, [] =>
          if closed (channel (tm c))
          then Some (mkConfig (tm c) (<[i := WExit]> (goroutines c)) (sending c)
                  false (fed c) (sent c) (dequeued c) (completed c))
          else None
      | _, _ => None
      end
  | CReturn i =>
      match goroutines c !! i with
      | Some (WRun x) =>
          Some (mkConfig (tm c) (<[i := WDec x]> (goroutines c)) (sending c)
                  false (fed c) (sent c) (dequeued c) (completed c ++ [x]))
      | _ => None
      end
  | CDec i =>
      match goroutines c !! i with
      | Some (WDec x) =>
          Some (mkConfig (workerDec (tm c)) (<[i := WIdle]> (goroutines c))
                  (sending c) false (fed c) (sent c) (dequeued c) (completed c))
      | _ => None
      end
  | CStop =>
      match Stop (tm c) with
      | Ok tm' => Some (mkConfig tm' (goroutines c) (sending c) false
                          (fed c) (sent c) (dequeued c) (completed c))
      | Panic _ => Some (crash c)
      end
  end.

Fixpoint run (c : Config) (chs : list choice) : option Config :=
  match chs with
  | [] => Some c
  | ch :: chs' =>
      match exec1 c ch with
      | None => None
      | Some c' => run c' chs'
      end
  end.

(** Items held by goroutines inside the callback, and between its
    return and the decrement. *)
Definition run_item (w : wstate) : list T :=
  match w with WRun x => [x] | _ => [] end.

Definition dec_item (w : wstate) : list T :=
  match w with WDec x => [x] | _ => [] end.

Definition running_items (ws : list wstate) : list T := ws ≫= run_item.

Definition decrementing_items (ws : list wstate) : list T := ws ≫= dec_item.

(** Every worker goroutine is idle in the [range] loop or has exited. *)
Definition all_finished (ws : list wstate) : bool :=
  forallb (fun w => match w with WIdle | WExit => true | _ => false end) ws.

End Threader.

(** ** UID helpers *)

#[global] Instance Go_ret : MRet Go := fun A a => Ok a.
#[global] Instance Go_bind : MBind Go := fun A B f m =>
  match m with Ok a => f a | Panic msg => Panic msg end.

Module UIDs.

(** [const randChars]; indexing a Go string yields a byte, here an
    [ascii]. *)
Definition randChars : string :=
  "abcdefghijklmnopqrstuvwxyzABCDEFGHIJKLMNOPQRSTUVWXYZ0123456789_-".

(** [s[i]]: panics when [i] is out of range. *)
Definition strIndex (s : string) (i : Z) : Go ascii :=
  match (if i <? 0 then None else String.get (Z.to_nat i) s) with
  | Some c => Ok c
  | None => Panic "index out of range"
  end.

(** [type UID [16]byte]: a list of 16 bytes. *)
Definition UID := list ascii.

(** [UIDFromString(s)]: [nil] below 16 bytes, otherwise the UID
    overlaying the first 16 bytes of the string's data. *)
Definition UIDFromString (s : string) : option UID :=
  if (String.length s <? 16)%nat then None
  else Some (take 16 (list_ascii_of_string s)).

(** [uid.ToString()]: the 16 bytes of the UID as a string. *)
Definition ToString (uid : UID) : string :=
  string_of_list_ascii (take 16 uid).

(** The condition tested on [b := uid[i]] in [IsValid]. *)
Definition validByte (b : ascii) : bool :=
  let n := nat_of_ascii b in
  ((97 <=? n) && (n <=? 122))%nat ||      (* 'a' .. 'z' *)
  ((65 <=? n) && (n <=? 90))%nat ||       (* 'A' .. 'Z' *)
  ((48 <=? n) && (n <=? 57))%nat ||       (* '0' .. '9' *)
  (n =? 95)%nat || (n =? 45)%nat.         (* '_' and '-' *)

(** The loop [for i := 0; i < 16; i++] of [IsValid], from index [i]
    with [n] iterations left. *)
Fixpoint isValidLoop (uid : UID) (i n : nat) : bool :=
  match n with
  | O => true
  | S n' =>
      match uid !! i with
      | Some b => if validByte b then isValidLoop uid (S i) n' else false
      | None => false
      end
  end.

(** [uid.IsValid()]. *)
Definition IsValid (uid : UID) : bool := isValidLoop uid 0 16.

(** [b[k] = randChars[e]]. *)
Definition setChar (b : UID) (k : nat) (e : Z) : Go UID :=
  c ← strIndex randChars e; mret (<[k := c]> b).

(** [NewUID(b)], given the three values [rnd1], [rnd2], [rnd3] returned
    by [Fastrand()] (a [uint32] each); the result is the new contents
    of [*b]. *)
Definition NewUID (rnd1 rnd2 rnd3 : Z) (b : UID) : Go UID :=
  b ← setChar b 0 (Z.land rnd1 63);
  b ← setChar b 1 (Z.land (Z.shiftr rnd1 6) 63);
  b ← setChar b 2 (Z.land (Z.shiftr rnd1 12) 63);
  b ← setChar b 3 (Z.land (Z.shiftr rnd1 18) 63);
  b ← setChar b 4 (Z.land (Z.shiftr rnd1 24) 63);
  b ← setChar b 5 (Z.land rnd2 63);
  b ← setChar b 6 (Z.land (Z.shiftr rnd2 6) 63);
  b ← setChar b 7 (Z.land (Z.shiftr rnd2 12) 63);
  b ← setChar b 8 (Z.land (Z.shiftr rnd2 18) 63);
  b ← setChar b 9 (Z.land (Z.shiftr rnd2 24) 63);
  b ← setChar b 10 (Z.land rnd3 63);
  b ← setChar b 11 (Z.land (Z.shiftr rnd3 6) 63);
  b ← setChar b 12 (Z.land (Z.shiftr rnd3 12) 63);
  b ← setChar b 13 (Z.land (Z.shiftr rnd3 18) 63);
  b ← setChar b 14 (Z.land (Z.shiftr rnd3 24) 63);
  setChar b 15
    (Z.lor (Z.lor (Z.land (Z.shiftr rnd1 30) 3)
                  (Z.shiftl (Z.land (Z.shiftr rnd2 30) 3) 2))
           (Z.shiftl (Z.land (Z.shiftr rnd3 30) 3) 4)).

(** The 16 indices at which [NewUID] reads [randChars], in the order
    of the bytes [b[0]] .. [b[15]] it writes. *)
Definition uidIndices (rnd1 rnd2 rnd3 : Z) : list Z :=
  [Z.land rnd1 63; Z.land (Z.shiftr rnd1 6) 63; Z.land (Z.shiftr rnd1 12) 63;
   Z.land (Z.shiftr rnd1 18) 63; Z.land (Z.shiftr rnd1 24) 63;
   Z.land rnd2 63; Z.land (Z.shiftr rnd2 6) 63; Z.land (Z.shiftr rnd2 12) 63;
   Z.land (Z.shiftr rnd2 18) 63; Z.land (Z.shiftr rnd2 24) 63;
   Z.land rnd3 63; Z.land (Z.shiftr rnd3 6) 63; Z.land (Z.shiftr rnd3 12) 63;
   Z.land (Z.shiftr rnd3 18) 63; Z.land (Z.shiftr rnd3 24) 63;
   Z.lor (Z.lor (Z.land (Z.shiftr rnd1 30) 3)
                (Z.shiftl (Z.land (Z.shiftr rnd2 30) 3) 2))
         (Z.shiftl (Z.land (Z.shiftr rnd3 30) 3) 4)].

End UIDs.

(** ** json.go *)

Section Json.
Variables (Reader Err T : Type).
(** [io.ReadAll]: the bytes read and the error, if any. *)
Variable readAll : Reader -> list Byte.byte * option Err.
(** goccy/go-json decoding [data] into a non-nil [*T] that holds the
    given value: the value it holds afterwards and the error, if any. *)
Variable decode : list Byte.byte -> T -> T * option Err.
(** The [*json.InvalidUnmarshalError] the library returns for a nil
    target pointer. *)
Variable invalidUnmarshalError : Err.
(** [var res T]: the zero value of [T]. *)
Variable zeroT : T.

(** [json.Unmarshal(b, p)] with [p : *T] given by the value it points
    to ([None] for nil): the value [*p] holds afterwards and the error. *)
Definition json_Unmarshal (b : list Byte.byte) (p : option T) : option T * option Err :=
  match p with
  | None => (None, Some invalidUnmarshalError)
  | Some v => let '(v', e) := decode b v in (Some v', e)
  end.

(** [Unmarshal[T](rc)]: a result pointer is given by the value it
    points to ([None] for nil). *)
Definition Unmarshal (rc : Reader) : option T * option Err :=
  let '(b, err) := readAll rc in
  match err with
  | Some e => (None, Some e)
  | None =>
      let '(res, err) := json_Unmarshal b (Some zeroT) in
      match err with
      | Some e => (None, Some e)
      | None => (res, None)
      end
  end.

(** [UnmarshalPointer[T](in, rc)]: [in] is given by the value it
    points to ([None] for nil); on success the result is [in] itself,
    pointing to the decoded value. *)
Definition UnmarshalPointer (inp : option T) (rc : Reader) : option T * option Err :=
  let '(b, err) := readAll rc in
  match err with
  | Some e => (None, Some e)
  | None =>
      let '(inp', err) := json_Unmarshal b inp in
      match err with
      | Some e => (None, Some e)
      | None => (inp', None)
      end
  end.

End Json.

Arguments mkChan {T}. Arguments mkTM {T}. Arguments mkConfig {T}.
Arguments WIdle {T}. Arguments WRun {T}. Arguments WDec {T}. Arguments WExit {T}.
Arguments makeChan {T}. Arguments closeChan {T}. Arguments NewThreadManager {T}.
Arguments IsDone {T}. Arguments Stop {T}. Arguments feedInc {T}.
Arguments workerDec {T}. Arguments setChannel {T}. Arguments initConfig {T}.
Arguments crash {T}. Arguments step {T}.
Arguments step_start {T}. Arguments step_feed_inc {T}. Arguments step_feed_send {T}.
Arguments step_feed_send_closed {T}. Arguments step_recv {T}. Arguments step_exit {T}.
Arguments step_return {T}. Arguments step_dec {T}. Arguments step_stop {T}.
Arguments step_stop_panic {T}. Arguments reachable {T}.
Arguments CStart {T}. Arguments CFeed {T}. Arguments CSend {T}.
Arguments CRecv {T}. Arguments CExit {T}. Arguments CReturn {T}.
Arguments CDec {T}. Arguments CStop {T}. Arguments exec1 {T}. Arguments run {T}.
Arguments run_item {T}. Arguments dec_item {T}. Arguments running_items {T}.
Arguments decrementing_items {T}. Arguments all_finished {T}.
Arguments buf {T}. Arguments cap {T}. Arguments closed {T}.
Arguments channel {T}. Arguments workers {T}. Arguments callback {T}.
Arguments counter {T}. Arguments tm {T}. Arguments goroutines {T}.
Arguments sending {T}. Arguments crashed {T}. Arguments fed {T}.
Arguments sent {T}. Arguments dequeued {T}. Arguments completed {T}.

(** Items the pool still counts: [Feed] calls between their increment
    and their send, buffered items, and items whose worker has not yet
    decremented. *)
Definition pending {T} (c : Config T) : nat :=
  length (sending c) + length (buf (channel (tm c))) +
  length (running_items (goroutines c)) +
  length (decrementing_items (goroutines c)).

(** The invariant of the pool's executions. *)
Record Inv {T} (c : Config T) : Prop := {
  inv_fed : fed c ≡ₚ sending c ++ sent c;
  inv_fifo : sent c = dequeued c ++ buf (channel (tm c));
  inv_deq : dequeued c ≡ₚ completed c ++ running_items (goroutines c);
  inv_counter : counter (tm c) = wrap64 (Z.of_nat (pending c));
  inv_dec : (length (decrementing_items (goroutines c)) <= length (completed c))%nat
}.

(** The README example as a concrete run: two workers, the strings
    "Foo", "Baar", "Baloo", "Golang" fed in order, callbacks returning
    out of order, then [Stop()] and both workers leaving the loop. *)
Definition demo_cb (s : string) : unit := tt.

Definition demo_tm : ThreaderManager string := mkTM (mkChan [] 2 false) 2 demo_cb 0.

Definition demo_schedule : list (choice string) :=
  [CStart; CFeed "Foo"; CSend 0; CFeed "Baar"; CSend 0; CRecv 0;
   CFeed "Baloo"; CSend 0; CRecv 1; CFeed "Golang"; CSend 0;
   CReturn 1; CDec 1; CRecv 1; CReturn 0; CDec 0; CRecv 0;
   CReturn 0; CDec 0; CReturn 1; CDec 1; CStop; CExit 0; CExit 1]%string.

(** The configuration after the first [k] actions of the run. *)
Definition demo_config (k : nat) : Config string :=
  match run (initConfig demo_tm) (take k demo_schedule) with
  | Some c => c
  | None => initConfig demo_tm
  end.

(** Structural facts of the pool's executions: the channel keeps the
    capacity [workers], its buffer never exceeds it, goroutines exist
    only if [workers] is positive, and a worker leaves its loop only on
    a closed, drained channel, which then stays drained. *)
Record Shape {T} (c : Config T) : Prop := {
  shape_cap : cap (channel (tm c)) = workers (tm c);
  shape_buf : Z.of_nat (length (buf (channel (tm c)))) <= cap (channel (tm c));
  shape_workers : goroutines c <> [] -> 0 < workers (tm c);
  shape_exit : forall j, goroutines c !! j = Some WExit ->
                 closed (channel (tm c)) = true /\ buf (channel (tm c)) = []
}.

(** The weight used to show that a pool with workers always makes
    progress: each scheduled action below lowers it by one. *)
Definition work_left {T} (c : Config T) : nat :=
  4 * length (sending c) + 3 * length (buf (channel (tm c))) +
  2 * length (running_items (goroutines c)) +
  length (decrementing_items (goroutines c)).

(** A second run: two items buffered before any worker exists, then
    [Start()] and [Stop()] right away. *)
Definition early_stop_schedule : list (choice string) :=
  [CFeed "a"; CSend 0; CFeed "b"; CSend 0; CStart; CStop]%string.

Definition early_stop_config : Config string :=
  match run (initConfig demo_tm) early_stop_schedule with
  | Some c => c
  | None => initConfig demo_tm
  end.

(** The same run followed by a [Feed("c")] that has done its increment
    on the stopped pool. *)
Definition late_feed_config : Config string :=
  match run (initConfig demo_tm) (early_stop_schedule ++ [CFeed "c"%string]) with
  | Some c => c
  | None => initConfig demo_tm
  end.

(** From there both workers process the two buffered items and leave
    their loops. *)
Definition late_feed_drain_schedule : list (choice string) :=
  [CRecv 0; CRecv 1; CReturn 0; CDec 0; CReturn 1; CDec 1; CExit 0; CExit 1].

Definition late_feed_drained : Config string :=
  match run late_feed_config late_feed_drain_schedule with
  | Some c => c
  | None => late_feed_config
  end.

(** A UID buffer and the UID [NewUID] writes into it for three sample
    values of [Fastrand()]. *)
Definition demo_uid_buf : UIDs.UID := repeat "0"%char 16.

Definition demo_uid : UIDs.UID :=
  match UIDs.NewUID 4294967295 123456789 2147483648 demo_uid_buf with
  | Ok u => u
  | Panic _ => demo_uid_buf
  end.

(** * Proofs *)

Section ThreaderProofs.
Context {T : Type}.

(** ** IsDone *)

(** C1: [IsDone()] is a pure read of the counter: it holds exactly when
    the counter is 0, whatever the rest of the pool and goroutines. *)
Theorem IsDone_iff_counter_zero (tm0 : ThreaderManager T) :
  IsDone tm0 = true <-> counter tm0 = 0.
Proof. unfold IsDone, LoadInt64. apply Z.eqb_eq. Qed.

(** ** Stop *)

(** C7: on an open channel, [Stop()] is one step, enabled whatever the
    counter, the buffer and the state of the workers; it sets the
    closed flag and leaves the buffer, the capacity, the worker count,
    the callback, the counter and every goroutine as they were. *)
Theorem Stop_only_closes (c : Config T) :
  crashed c = false ->
  closed (channel (tm c)) = false ->
  exists tm',
    Stop (tm c) = Ok tm' /\
    step c (mkConfig tm' (goroutines c) (sending c) false
              (fed c) (sent c) (dequeued c) (completed c)) /\
    closed (channel tm') = true /\
    buf (channel tm') = buf (channel (tm c)) /\
    cap (channel tm') = cap (channel (tm c)) /\
    counter tm' = counter (tm c) /\
    workers tm' = workers (tm c) /\
    callback tm' = callback (tm c).
Proof.
  intros Hc Hcl.
  assert (HS : Stop (tm c) = Ok (mkTM (mkChan (buf (channel (tm c)))
                  (cap (channel (tm c))) true) (workers (tm c))
                  (callback (tm c)) (counter (tm c)))).
  { unfold Stop, closeChan. rewrite Hcl. reflexivity. }
  eexists. split; [exact HS|]. split; [apply step_stop; assumption|].
  repeat split; reflexivity.
Qed.

(** C5 (as the code does it): [Stop()] has no guard, so a second call
    closes a closed channel, which panics; in the step semantics the
    process crashes. *)
Theorem Stop_twice_panics (c : Config T) tm' :
  crashed c = false ->
  Stop (tm c) = Ok tm' ->
  Stop tm' = Panic "close of closed channel" /\
  step (mkConfig tm' (goroutines c) (sending c) false
          (fed c) (sent c) (dequeued c) (completed c))
       (crash (mkConfig tm' (goroutines c) (sending c) false
          (fed c) (sent c) (dequeued c) (completed c))).
Proof.
  intros Hc HS. unfold Stop, closeChan in HS.
  destruct (closed (channel (tm c))); [discriminate|].
  injection HS as <-.
  split; [reflexivity|].
  eapply step_stop_panic; reflexivity.
Qed.

(** ** The invariant *)

Lemma wrap64_add_idemp a d : wrap64 (wrap64 a + d) = wrap64 (a + d).
Proof.
  unfold wrap64.
  replace ((a + 2 ^ 63) mod 2 ^ 64 - 2 ^ 63 + d + 2 ^ 63)
    with ((a + 2 ^ 63) mod 2 ^ 64 + d) by ring.
  rewrite Z.add_mod_idemp_l by lia.
  f_equal. f_equal. ring_simplify. reflexivity.
Qed.

Lemma bind_insert_perm (f : wstate T -> list T) (l : list (wstate T)) i w0 w :
  l !! i = Some w0 ->
  (<[i := w]> l ≫= f) ++ f w0 ≡ₚ (l ≫= f) ++ f w.
Proof.
  revert i. induction l as [|a l IH]; intros [|i] Hi; try discriminate.
  - injection Hi as ->. change (<[0 := w]> (w0 :: l)) with (w :: l).
    rewrite !bind_cons. solve_Permutation.
  - change (<[S i := w]> (a :: l)) with (a :: <[i := w]> l).
    rewrite !bind_cons, <- !(assoc_L app). apply Permutation_app_head.
    apply IH. exact Hi.
Qed.

Lemma bind_insert_length (f : wstate T -> list T) (l : list (wstate T)) i w0 w :
  l !! i = Some w0 ->
  (length (<[i := w]> l ≫= f) + length (f w0) = length (l ≫= f) + length (f w))%nat.
Proof.
  intros Hi. pose proof (Permutation_length (bind_insert_perm f l i w0 w Hi)) as P.
  rewrite !length_app in P. exact P.
Qed.

Lemma bind_replicate_idle (f : wstate T -> list T) n :
  f WIdle = [] -> replicate n WIdle ≫= f = [].
Proof.
  intros Hf. induction n as [|n IH]; [done|].
  change (replicate (S n) WIdle) with (WIdle :: replicate n (@WIdle T)).
  rewrite bind_cons, Hf, IH. done.
Qed.

Lemma Inv_init n cb (tm0 : ThreaderManager T) :
  NewThreadManager n cb = Ok tm0 -> Inv (initConfig tm0).
Proof.
  unfold NewThreadManager, makeChan. destruct (n <? 0); intros H; [discriminate|].
  injection H as <-. split; simpl; try done.
Qed.

Ltac len_perm H := apply Permutation_length in H; rewrite ?length_app in H; simpl in H.

Lemma Inv_step (c c' : Config T) : Inv c -> step c c' -> Inv c'.
Proof.
  intros [Hfed Hfifo Hdeq Hcnt Hdecn] Hs.
  destruct Hs as [c Hc|c x Hc|c i x Hc Hi Hcl Hcap|c i x Hc Hi Hcl
                 |c i x rest Hc Hi Hb|c i Hc Hi Hb Hcl|c i x Hc Hi|c i x Hc Hi
                 |c tm' Hc HS|c m Hc HS];
    split; unfold pending, running_items, decrementing_items in *;
    cbn [tm goroutines sending crashed fed sent dequeued completed buf cap
         closed channel counter workers callback setChannel crash] in *;
    try done.
  - (* start *)
    rewrite !bind_app, !bind_replicate_idle by done. rewrite !app_nil_r. done.
  - rewrite !bind_app, !bind_replicate_idle by done. rewrite !app_nil_r.
    rewrite Hcnt. done.
  - rewrite !bind_app, !bind_replicate_idle by done. rewrite !app_nil_r. done.
  - (* feed increment *)
    rewrite Hfed. solve_Permutation.
  - unfold feedInc, AddInt64. cbn [counter channel].
    rewrite Hcnt, wrap64_add_idemp, length_app. cbn [length]. f_equal. lia.
  - (* send *)
    rewrite Hfed. etrans; [apply Permutation_app_tail, (delete_Permutation _ _ _ Hi)|].
    solve_Permutation.
  - rewrite Hfifo, (assoc_L app). done.
  - rewrite Hcnt, length_app, length_delete by eauto. cbn [length].
    assert (length (sending c) <> 0)%nat.
    { apply lookup_lt_Some in Hi. lia. }
    f_equal. lia.
  - (* receive *)
    rewrite Hfifo, Hb, <- (assoc_L app). done.
  - pose proof (bind_insert_perm run_item _ _ _ (WRun x) Hi) as P.
    cbn [run_item] in P. rewrite app_nil_r in P. rewrite P, Hdeq. solve_Permutation.
  - pose proof (bind_insert_length run_item _ _ _ (WRun x) Hi) as P.
    pose proof (bind_insert_length dec_item _ _ _ (WRun x) Hi) as Q.
    cbn [run_item dec_item length] in P, Q.
    rewrite Hcnt, Hb. cbn [length]. f_equal. lia.
  - pose proof (bind_insert_length dec_item _ _ _ (WRun x) Hi) as Q.
    cbn [dec_item length] in Q. lia.
  - (* exit *)
    pose proof (bind_insert_perm run_item _ _ _ WExit Hi) as P.
    cbn [run_item] in P. rewrite !app_nil_r in P. rewrite Hdeq, P. done.
  - pose proof (bind_insert_length run_item _ _ _ WExit Hi) as P.
    pose proof (bind_insert_length dec_item _ _ _ WExit Hi) as Q.
    cbn [run_item dec_item length] in P, Q.
    rewrite Hcnt. f_equal. lia.
  - pose proof (bind_insert_length dec_item _ _ _ WExit Hi) as Q.
    cbn [dec_item length] in Q. lia.
  - (* callback returns *)
    pose proof (bind_insert_perm run_item _ _ _ (WDec x) Hi) as P.
    cbn [run_item] in P. rewrite !app_nil_r in P. rewrite Hdeq, <- P.
    solve_Permutation.
  - pose proof (bind_insert_length run_item _ _ _ (WDec x) Hi) as P.
    pose proof (bind_insert_length dec_item _ _ _ (WDec x) Hi) as Q.
    cbn [run_item dec_item length] in P, Q.
    rewrite Hcnt. f_equal. lia.
  - pose proof (bind_insert_length dec_item _ _ _ (WDec x) Hi) as Q.
    cbn [dec_item length] in Q. rewrite length_app. cbn [length]. lia.
  - (* decrement *)
    pose proof (bind_insert_perm run_item _ _ _ WIdle Hi) as P.
    cbn [run_item] in P. rewrite !app_nil_r in P. rewrite Hdeq, P. done.
  - pose proof (bind_insert_length run_item _ _ _ WIdle Hi) as P.
    pose proof (bind_insert_length dec_item _ _ _ WIdle Hi) as Q.
    cbn [run_item dec_item length] in P, Q.
    unfold workerDec, AddInt64. cbn [counter channel].
    rewrite Hcnt, wrap64_add_idemp. f_equal. lia.
  - pose proof (bind_insert_length dec_item _ _ _ WIdle Hi) as Q.
    cbn [dec_item length] in Q. lia.
  - (* stop *)
    revert HS. unfold Stop, closeChan. destruct (closed (channel (tm c)));
      intros HS; [discriminate|]. injection HS as <-. done.
  - revert HS. unfold Stop, closeChan. destruct (closed (channel (tm c)));
      intros HS; [discriminate|]. injection HS as <-. done.
Qed.

Lemma Inv_rtc (c c' : Config T) : Inv c -> rtc step c c' -> Inv c'.
Proof. intros HI Hr. induction Hr; eauto using Inv_step. Qed.

Lemma Inv_reachable (c : Config T) : reachable c -> Inv c.
Proof.
  intros (n & cb & tm0 & Hnew & Hr). eapply Inv_rtc; [|exact Hr].
  eapply Inv_init; exact Hnew.
Qed.

Lemma all_finished_no_items (ws : list (wstate T)) :
  all_finished ws = true ->
  running_items ws = [] /\ decrementing_items ws = [].
Proof.
  unfold running_items, decrementing_items.
  induction ws as [|w ws IH]; [done|].
  unfold all_finished. cbn [forallb]. intros H.
  apply andb_prop in H as [Hw Hws].
  rewrite !bind_cons. destruct (IH Hws) as [-> ->].
  destruct w; cbn in *; done.
Qed.

Lemma sent_length (c : Config T) :
  Inv c ->
  length (fed c) = (length (sending c) + length (completed c) +
     length (running_items (goroutines c)) + length (buf (channel (tm c))))%nat.
Proof.
  intros [Hfed Hfifo Hdeq _ _].
  apply Permutation_length in Hfed, Hdeq.
  rewrite Hfifo, !length_app in Hfed. rewrite length_app in Hdeq. lia.
Qed.

Lemma dequeued_prefix (c : Config T) :
  reachable c -> sent c = dequeued c ++ buf (channel (tm c)).
Proof. intros Hr. apply (inv_fifo c (Inv_reachable c Hr)). Qed.

(** ** Completion of every fed item *)

(** C2: in every interleaving, once no [Feed] call is left at its send,
    the channel's buffer is empty and every worker is idle or has
    exited, the callback has been invoked once per fed item and has
    returned once per fed item (the same multiset of items), and the
    counter is exactly 0. *)
Theorem drained_pool_processed_each_once (c : Config T) :
  reachable c ->
  sending c = [] ->
  buf (channel (tm c)) = [] ->
  all_finished (goroutines c) = true ->
  dequeued c ≡ₚ fed c /\ completed c ≡ₚ fed c /\
  counter (tm c) = 0 /\ IsDone (tm c) = true.
Proof.
  intros Hr Hs Hb Hw.
  destruct (Inv_reachable c Hr) as [Hfed Hfifo Hdeq Hcnt _].
  destruct (all_finished_no_items _ Hw) as [Hrun Hdec].
  rewrite Hs in Hfed. rewrite Hb, app_nil_r in Hfifo.
  rewrite Hrun, app_nil_r in Hdeq. simpl in Hfed.
  assert (Hc0 : counter (tm c) = 0).
  { rewrite Hcnt. unfold pending. rewrite Hs, Hb, Hrun, Hdec. reflexivity. }
  split; [|split; [|split]].
  - rewrite Hfed, Hfifo. done.
  - rewrite Hfed, Hfifo, Hdeq. done.
  - exact Hc0.
  - apply IsDone_iff_counter_zero. exact Hc0.
Qed.

(** ** IsDone while work is unfinished *)

(** C3: [Feed] counts an item before sending it and a worker uncounts
    it only after the callback returned, so in every reachable state
    where fewer callbacks have returned than items were fed, [IsDone()]
    is false (for fewer than 2^63 calls of [Feed], below which the
    [int64] counter cannot wrap). *)
Theorem IsDone_false_while_unfinished (c : Config T) :
  reachable c ->
  (length (completed c) < length (fed c))%nat ->
  Z.of_nat (length (fed c)) < 2 ^ 63 ->
  IsDone (tm c) = false.
Proof.
  intros Hr Hlt Hbound.
  pose proof (Inv_reachable c Hr) as HI.
  pose proof (sent_length c HI) as Hlen.
  destruct HI as [_ _ _ Hcnt Hdecn].
  unfold IsDone, LoadInt64. rewrite Hcnt. unfold pending.
  apply Z.eqb_neq. unfold wrap64.
  rewrite Z.mod_small by lia. lia.
Qed.

(** ** FIFO dequeue order *)

(** C6: workers receive items in the order their sends went through
    (for one feeding goroutine, the order of its [Feed] calls): if the
    [j]-th sent item has been received, it was the [j]-th reception,
    and every earlier-sent item [i < j] was received before it, as the
    [i]-th. *)
Theorem dequeue_order_is_send_order (c : Config T) :
  reachable c ->
  forall (i j : nat) (b : T), (i < j)%nat ->
  dequeued c !! j = Some b ->
  sent c !! j = Some b /\
  exists a, sent c !! i = Some a /\ dequeued c !! i = Some a.
Proof.
  intros Hr i j b Hij Hj.
  pose proof (dequeued_prefix c Hr) as Hp.
  assert (Hi : is_Some (dequeued c !! i)).
  { apply lookup_lt_is_Some. apply lookup_lt_Some in Hj. lia. }
  destruct Hi as [a Ha].
  split.
  - rewrite Hp. rewrite lookup_app_l by (eapply lookup_lt_Some; eauto). exact Hj.
  - exists a. split; [|exact Ha].
    rewrite Hp. rewrite lookup_app_l by (eapply lookup_lt_Some; eauto). exact Ha.
Qed.

(** ** Construction with zero or negative workers *)

Lemma zero_cap_never_sends (c c' : Config T) :
  rtc step c c' -> cap (channel (tm c)) = 0 -> sent c = [] ->
  cap (channel (tm c')) = 0 /\ sent c' = [].
Proof.
  induction 1 as [c|c c1 c' Hs Hr IH]; [done|]. intros Hcap Hsent.
  apply IH; destruct Hs; cbn [tm channel cap sent setChannel crash] in *;
    try done; try (exfalso; lia).
  all: match goal with
       | HS : Stop _ = Ok _ |- _ =>
           revert HS; unfold Stop, closeChan;
           destruct (closed (channel (tm c))); intros HS; [discriminate|];
           injection HS as <-; done
       end.
Qed.

(** C4 (as the code does it): [NewThreadManager] does not check the
    worker count.  A negative count makes [make(chan T, workers)]
    panic; a zero count returns a pool with no workers and an
    unbuffered channel, on which no send of [Feed] ever goes through,
    in any execution. *)
Theorem NewThreadManager_unchecked (cb : T -> unit) :
  (forall n, n < 0 -> NewThreadManager n cb = Panic "makechan: size out of range") /\
  exists tm0, NewThreadManager 0 cb = Ok tm0 /\ workers tm0 = 0 /\
    forall c, rtc step (initConfig tm0) c -> sent c = [].
Proof.
  split.
  - intros n Hn. unfold NewThreadManager, makeChan.
    replace (n <? 0) with true by lia. reflexivity.
  - eexists. split; [reflexivity|]. split; [reflexivity|].
    intros c Hr. apply (zero_cap_never_sends _ _ Hr); reflexivity.
Qed.

(** ** The executable scheduler *)

Lemma exec1_sound (c c' : Config T) ch : exec1 c ch = Some c' -> step c c'.
Proof.
  unfold exec1. destruct (crashed c) eqn:Hc; [discriminate|].
  destruct ch as [|x|i|i|i|i|i|]; intros H.
  - injection H as <-. apply step_start; done.
  - injection H as <-. apply step_feed_inc; done.
  - destruct (sending c !! i) as [x|] eqn:Hi; [|discriminate].
    destruct (closed (channel (tm c))) eqn:Hcl.
    + injection H as <-. eapply step_feed_send_closed; eauto.
    + destruct (Z.of_nat _ <? _) eqn:Hlt; [|discriminate].
      injection H as <-. apply step_feed_send; auto. lia.
  - destruct (goroutines c !! i) as [[]|] eqn:Hi; try discriminate.
    destruct (buf (channel (tm c))) as [|x rest] eqn:Hb; [discriminate|].
    injection H as <-. eapply step_recv; eauto.
  - destruct (goroutines c !! i) as [[]|] eqn:Hi; try discriminate.
    destruct (buf (channel (tm c))) eqn:Hb; [|discriminate].
    destruct (closed (channel (tm c))) eqn:Hcl; [|discriminate].
    injection H as <-. apply step_exit; auto.
  - destruct (goroutines c !! i) as [[]|] eqn:Hi; try discriminate.
    injection H as <-. eapply step_return; eauto.
  - destruct (goroutines c !! i) as [[]|] eqn:Hi; try discriminate.
    injection H as <-. eapply step_dec; eauto.
  - destruct (Stop (tm c)) as [tm'|m] eqn:HS.
    + injection H as <-. apply step_stop; auto.
    + injection H as <-. eapply step_stop_panic; eauto.
Qed.

Lemma run_sound (c c' : Config T) chs : run c chs = Some c' -> rtc step c c'.
Proof.
  revert c. induction chs as [|ch chs IH]; intros c H; simpl in H.
  - injection H as <-. apply rtc_refl.
  - destruct (exec1 c ch) as [c1|] eqn:H1; [|discriminate].
    eapply rtc_l; [exact (exec1_sound c c1 ch H1)|]. apply IH, H.
Qed.

End ThreaderProofs.

(** ** UID helpers *)

Module UIDProofs.
Import UIDs.

Lemma land63_range x : 0 <= Z.land x 63 < 64.
Proof.
  change 63 with (Z.ones 6). rewrite Z.land_ones by lia.
  apply Z.mod_pos_bound. reflexivity.
Qed.

Lemma land3_cases x : Z.land x 3 = 0 \/ Z.land x 3 = 1 \/ Z.land x 3 = 2 \/ Z.land x 3 = 3.
Proof.
  assert (H : Z.land x (Z.ones 2) = x mod 2 ^ 2) by (apply Z.land_ones; lia).
  change (Z.ones 2) with 3 in H. change (2 ^ 2) with 4 in H. rewrite H.
  pose proof (Z.mod_pos_bound x 4 ltac:(reflexivity)). lia.
Qed.

(** The index of [b[15]] combines the top two bits of each random
    value into six bits. *)
Lemma last_index_range r1 r2 r3 :
  0 <= Z.lor (Z.lor (Z.land (Z.shiftr r1 30) 3)
                    (Z.shiftl (Z.land (Z.shiftr r2 30) 3) 2))
             (Z.shiftl (Z.land (Z.shiftr r3 30) 3) 4) < 64.
Proof.
  destruct (land3_cases (Z.shiftr r1 30)) as [-> | [-> | [-> | ->]]];
  destruct (land3_cases (Z.shiftr r2 30)) as [-> | [-> | [-> | ->]]];
  destruct (land3_cases (Z.shiftr r3 30)) as [-> | [-> | [-> | ->]]];
  split; vm_compute; congruence.
Qed.

Lemma randChars_all_valid :
  forallb (fun n => match strIndex randChars (Z.of_nat n) with
                    | Ok ch => validByte ch
                    | Panic _ => false
                    end) (seq 0 64) = true.
Proof. vm_compute. reflexivity. Qed.

Lemma strIndex_ok e :
  0 <= e < 64 -> exists ch, validByte ch = true /\ strIndex randChars e = Ok ch.
Proof.
  intros He.
  pose proof (proj1 (forallb_forall _ _) randChars_all_valid (Z.to_nat e)) as H.
  cbv beta in H. rewrite Z2Nat.id in H by lia.
  destruct (strIndex randChars e) as [ch|m]; [|discriminate H; apply in_seq; lia].
  exists ch. split; [apply H; apply in_seq; lia|reflexivity].
Qed.

Ltac length16 b :=
  do 16 (destruct b as [|? b]; [discriminate|]);
  destruct b; [|discriminate].

(** C9: whatever the three values of [Fastrand()], every index into
    [randChars] is within its 64 characters, so [NewUID] does not
    panic; it overwrites all 16 bytes (the result does not depend on
    the previous contents of [*b]) and the resulting UID passes
    [IsValid()]. *)
Theorem NewUID_in_bounds_and_valid (rnd1 rnd2 rnd3 : Z) (b : UID) :
  length b = 16%nat ->
  exists u, NewUID rnd1 rnd2 rnd3 b = Ok u /\ length u = 16%nat /\
    IsValid u = true /\
    forall b' : UID, length b' = 16%nat -> NewUID rnd1 rnd2 rnd3 b' = Ok u.
Proof.
  intros Hb. unfold NewUID, setChar.
  repeat match goal with
  | |- context [strIndex randChars ?e] =>
      let V := fresh "V" in let E := fresh "E" in let ch := fresh "ch" in
      destruct (strIndex_ok e ltac:(first [apply land63_range | apply last_index_range]))
        as (ch & V & E);
      rewrite E
  end.
  cbn [mbind Go_bind mret Go_ret].
  length16 b.
  eexists. split; [reflexivity|]. split; [reflexivity|]. split.
  - unfold IsValid. cbn.
    repeat match goal with V : validByte _ = true |- _ => rewrite V; clear V end.
    reflexivity.
  - intros b' Hb'. length16 b'. reflexivity.
Qed.

Lemma length_list_ascii_of_string s :
  length (list_ascii_of_string s) = String.length s.
Proof. induction s; simpl; congruence. Qed.

Lemma substring_0_take n s :
  substring 0 n s = string_of_list_ascii (take n (list_ascii_of_string s)).
Proof.
  revert n. induction s as [|a s IH]; intros [|n]; simpl; try reflexivity.
  rewrite IH. reflexivity.
Qed.

(** C10: [UIDFromString(s)] is nil exactly when [len(s) < 16];
    otherwise it is a 16-byte UID whose [ToString()] is the first 16
    bytes of [s]. *)
Theorem UIDFromString_roundtrip (s : string) :
  match UIDFromString s with
  | None => (String.length s < 16)%nat
  | Some u => (16 <= String.length s)%nat /\ length u = 16%nat /\
              ToString u = substring 0 16 s
  end.
Proof.
  unfold UIDFromString.
  destruct (String.length s <? 16)%nat eqn:H.
  - apply Nat.ltb_lt in H. exact H.
  - apply Nat.ltb_ge in H. split; [exact H|]. split.
    + rewrite length_take, length_list_ascii_of_string. lia.
    + unfold ToString. rewrite take_take, substring_0_take. f_equal.
Qed.

End UIDProofs.

(** ** json.go *)

Section JsonProofs.
Variables (Reader Err T : Type).
Variable readAll : Reader -> list Byte.byte * option Err.
Variable decode : list Byte.byte -> T -> T * option Err.
Variable invalidUnmarshalError : Err.
Variable zeroT : T.

(** C8: both wrappers read all of the reader first and hand the bytes to
    the library; they return a nil pointer with the error of the read
    or of the decoding, or, when both succeed, the pointer to the
    decoded value with a nil error; nothing else. *)
Theorem Unmarshal_wrappers_contract (rc : Reader) (inp : option T) :
  ((exists e, Unmarshal Reader Err T readAll decode invalidUnmarshalError zeroT rc
                = (None, Some e) /\
     (snd (readAll rc) = Some e \/
      snd (readAll rc) = None /\ snd (decode (fst (readAll rc)) zeroT) = Some e)) \/
   (snd (readAll rc) = None /\ snd (decode (fst (readAll rc)) zeroT) = None /\
    Unmarshal Reader Err T readAll decode invalidUnmarshalError zeroT rc
      = (Some (fst (decode (fst (readAll rc)) zeroT)), None))) /\
  ((exists e, UnmarshalPointer Reader Err T readAll decode invalidUnmarshalError inp rc
                = (None, Some e) /\
     (snd (readAll rc) = Some e \/
      snd (readAll rc) = None /\
      snd (json_Unmarshal Err T decode invalidUnmarshalError (fst (readAll rc)) inp)
        = Some e)) \/
   (exists v, snd (readAll rc) = None /\
    json_Unmarshal Err T decode invalidUnmarshalError (fst (readAll rc)) inp
      = (Some v, None) /\
    UnmarshalPointer Reader Err T readAll decode invalidUnmarshalError inp rc
      = (Some v, None))).
Proof.
  unfold Unmarshal, UnmarshalPointer.
  destruct (readAll rc) as [b [e|]]; cbn [fst snd].
  { split; left; exists e; split; auto. }
  split.
  - unfold json_Unmarshal. destruct (decode b zeroT) as [v [e|]]; cbn [fst snd].
    + left. exists e. auto.
    + right. auto.
  - destruct (json_Unmarshal Err T decode invalidUnmarshalError b inp) as [[v|] [e|]] eqn:Hj;
      cbn [fst snd].
    + left. exists e. auto.
    + right. exists v. auto.
    + left. exists e. auto.
    + exfalso. revert Hj. unfold json_Unmarshal. destruct inp as [x|]; [|discriminate].
      destruct (decode b x). discriminate.
Qed.

End JsonProofs.

(** ** Concrete runs *)

Lemma demo_new : NewThreadManager 2 demo_cb = Ok demo_tm.
Proof. reflexivity. Qed.

Lemma demo_reachable k : reachable (demo_config k).
Proof.
  exists 2, demo_cb, demo_tm. split; [exact demo_new|].
  unfold demo_config.
  destruct (run (initConfig demo_tm) (take k demo_schedule)) eqn:H.
  - exact (run_sound _ _ _ H).
  - apply rtc_refl.
Qed.

Lemma drained_pool_processed_each_once_witness :
  sending (demo_config 24) = [] /\ buf (channel (tm (demo_config 24))) = [] /\
  all_finished (goroutines (demo_config 24)) = true /\
  (dequeued (demo_config 24) ≡ₚ fed (demo_config 24) /\
   completed (demo_config 24) ≡ₚ fed (demo_config 24) /\
   counter (tm (demo_config 24)) = 0 /\ IsDone (tm (demo_config 24)) = true).
Proof.
  split; [vm_compute; reflexivity|]. split; [vm_compute; reflexivity|].
  split; [vm_compute; reflexivity|].
  apply (drained_pool_processed_each_once (demo_config 24)).
  - apply demo_reachable.
  - vm_compute; reflexivity.
  - vm_compute; reflexivity.
  - vm_compute; reflexivity.
Defined.

Lemma IsDone_false_while_unfinished_witness :
  (length (completed (demo_config 2)) < length (fed (demo_config 2)))%nat /\
  IsDone (tm (demo_config 2)) = false.
Proof.
  split; [vm_compute; lia|].
  apply (IsDone_false_while_unfinished (demo_config 2)).
  - apply demo_reachable.
  - vm_compute. lia.
  - vm_compute. reflexivity.
Defined.

Lemma dequeue_order_is_send_order_witness :
  dequeued (demo_config 14) !! 2%nat = Some "Baloo"%string /\
  sent (demo_config 14) !! 2%nat = Some "Baloo"%string /\
  exists a, sent (demo_config 14) !! 0%nat = Some a /\
            dequeued (demo_config 14) !! 0%nat = Some a.
Proof.
  assert (H : dequeued (demo_config 14) !! 2%nat = Some "Baloo"%string)
    by (vm_compute; reflexivity).
  split; [exact H|].
  apply (dequeue_order_is_send_order (demo_config 14) (demo_reachable 14) 0 2);
    [lia|exact H].
Defined.

Lemma Stop_only_closes_witness :
  counter (tm (demo_config 14)) = 3 /\
  exists tm',
    Stop (tm (demo_config 14)) = Ok tm' /\
    step (demo_config 14)
      (mkConfig tm' (goroutines (demo_config 14)) (sending (demo_config 14)) false
         (fed (demo_config 14)) (sent (demo_config 14))
         (dequeued (demo_config 14)) (completed (demo_config 14))) /\
    closed (channel tm') = true /\
    buf (channel tm') = buf (channel (tm (demo_config 14))) /\
    cap (channel tm') = cap (channel (tm (demo_config 14))) /\
    counter tm' = counter (tm (demo_config 14)) /\
    workers tm' = workers (tm (demo_config 14)) /\
    callback tm' = callback (tm (demo_config 14)).
Proof.
  split; [vm_compute; reflexivity|].
  apply (Stop_only_closes (demo_config 14)); vm_compute; reflexivity.
Defined.

Lemma Stop_twice_panics_witness :
  Stop (tm (demo_config 21)) = Ok (mkTM (mkChan [] 2 true) 2 demo_cb 0) /\
  Stop (mkTM (mkChan [] 2 true) 2 demo_cb 0) = Panic "close of closed channel".
Proof.
  assert (H : Stop (tm (demo_config 21)) = Ok (mkTM (mkChan [] 2 true) 2 demo_cb 0))
    by (vm_compute; reflexivity).
  split; [exact H|].
  apply (Stop_twice_panics (demo_config 21)); [vm_compute; reflexivity|exact H].
Defined.

(** C5 as stated fails: a second [Stop()] is neither a no-op nor a
    returned error, it panics. *)
Lemma Stop_twice_not_idempotent :
  exists tm1 tm2, NewThreadManager 2 demo_cb = Ok tm1 /\ Stop tm1 = Ok tm2 /\
    Stop tm2 = Panic "close of closed channel".
Proof. do 2 eexists. split; [reflexivity|]. split; reflexivity. Qed.

(** C4 as stated fails: a zero worker count is neither rejected nor
    clamped; the pool has no workers and an unbuffered channel. *)
Lemma NewThreadManager_zero_accepted :
  exists tm0, NewThreadManager 0 demo_cb = Ok tm0 /\ workers tm0 = 0 /\
    cap (channel tm0) = 0.
Proof. eexists. split; [reflexivity|]. split; reflexivity. Qed.

Lemma NewUID_in_bounds_and_valid_witness :
  length (replicate 16 "0"%char) = 16%nat /\
  exists u, UIDs.NewUID 4294967295 0 123456789 (replicate 16 "0"%char) = Ok u /\
    length u = 16%nat /\ UIDs.IsValid u = true /\
    forall b' : UIDs.UID, length b' = 16%nat -> UIDs.NewUID 4294967295 0 123456789 b' = Ok u.
Proof.
  split; [reflexivity|].
  apply UIDProofs.NewUID_in_bounds_and_valid. reflexivity.
Defined.

(** * Further properties of the pool *)

Section PoolMore.
Context {T : Type}.

Lemma insert_lookup_other (l : list (wstate T)) i w j y :
  <[i := w]> l !! j = Some y -> w <> y -> l !! j = Some y.
Proof.
  intros H Hne. apply list_lookup_insert_Some in H as [(-> & -> & _)|(_ & H)];
    [congruence|exact H].
Qed.

Lemma Shape_init n cb (tm0 : ThreaderManager T) :
  NewThreadManager n cb = Ok tm0 -> Shape (initConfig tm0).
Proof.
  unfold NewThreadManager, makeChan. destruct (n <? 0) eqn:Hn; intros H; [discriminate|].
  injection H as <-. apply Z.ltb_ge in Hn.
  split; cbn; try done; lia.
Qed.

Lemma Shape_step (c c' : Config T) : Shape c -> step c c' -> Shape c'.
Proof.
  intros [Hcap Hbuf Hw Hex] Hs.
  destruct Hs as [c Hc|c x Hc|c i x Hc Hi Hcl Hlt|c i x Hc Hi Hcl
                 |c i x rest Hc Hi Hb|c i Hc Hi Hb Hcl|c i x Hc Hi|c i x Hc Hi
                 |c tm' Hc HS|c m Hc HS];
    split; cbn [tm goroutines sending crashed fed sent dequeued completed buf cap
         closed channel counter workers callback setChannel crash feedInc workerDec] in *;
    try done.
  - (* start *)
    intros Hne. destruct (goroutines c) eqn:Hg; [|apply Hw; discriminate].
    cbn in Hne. destruct (Z.to_nat (workers (tm c))) eqn:Hz; [done|lia].
  - intros j Hj. apply lookup_app_Some in Hj as [Hj|[_ Hj]]; [eauto|].
    apply lookup_replicate in Hj as [? _]. discriminate.
  - (* send *)
    rewrite length_app. cbn [length]. lia.
  - intros j Hj. rewrite (proj1 (Hex j Hj)) in Hcl. discriminate.
  - (* receive *)
    rewrite Hb in Hbuf. cbn [length] in Hbuf. lia.
  - intros Hne. apply Hw. intros He. rewrite He in Hne. done.
  - intros j Hj. apply insert_lookup_other in Hj; [|discriminate].
    destruct (Hex j Hj) as [_ Hb']. congruence.
  - (* exit *)
    intros Hne. apply Hw. intros He. rewrite He in Hne. done.
  - (* return *)
    intros Hne. apply Hw. intros He. rewrite He in Hne. done.
  - intros j Hj. apply insert_lookup_other in Hj; [|discriminate]. exact (Hex j Hj).
  - (* decrement *)
    intros Hne. apply Hw. intros He. rewrite He in Hne. done.
  - intros j Hj. apply insert_lookup_other in Hj; [|discriminate]. exact (Hex j Hj).
  (* stop *)
  - revert HS; unfold Stop, closeChan; destruct (closed (channel (tm c)));
      intros HS; [discriminate|]; injection HS as <-; cbn; try done.
  - revert HS; unfold Stop, closeChan; destruct (closed (channel (tm c)));
      intros HS; [discriminate|]; injection HS as <-; cbn; try done.
  - revert HS; unfold Stop, closeChan; destruct (closed (channel (tm c)));
      intros HS; [discriminate|]; injection HS as <-; cbn; try done.
  - revert HS; unfold Stop, closeChan; destruct (closed (channel (tm c)));
      intros HS; [discriminate|]; injection HS as <-; cbn; try done.
    intros j Hj. destruct (Hex j Hj) as [Hcl _]. discriminate.
Qed.

Lemma Shape_reachable (c : Config T) : reachable c -> Shape c.
Proof.
  intros (n & cb & tm0 & Hnew & Hr). apply Shape_init in Hnew.
  induction Hr; eauto using Shape_step.
Qed.

Lemma reachable_rtc (c c' : Config T) : reachable c -> rtc step c c' -> reachable c'.
Proof.
  intros (n & cb & tm0 & Hnew & Hr) Hr'. exists n, cb, tm0. split; [exact Hnew|].
  etrans; eauto.
Qed.

Lemma pending_le_fed (c : Config T) :
  Inv c -> (pending c <= length (fed c))%nat.
Proof.
  intros HI. pose proof (sent_length c HI) as Hl. pose proof (inv_dec c HI).
  unfold pending. lia.
Qed.

Lemma wrap64_small z : 0 <= z < 2 ^ 63 -> wrap64 z = z.
Proof. intros Hz. unfold wrap64. rewrite Z.mod_small by lia. lia. Qed.

(** The [int64] counter of a reachable pool lies between 0 and the
    number of [Feed] calls so far (below 2^63 calls). *)
Theorem counter_between_zero_and_fed (c : Config T) :
  reachable c ->
  Z.of_nat (length (fed c)) < 2 ^ 63 ->
  0 <= counter (tm c) <= Z.of_nat (length (fed c)).
Proof.
  intros Hr Hb. pose proof (Inv_reachable c Hr) as HI.
  pose proof (pending_le_fed c HI).
  rewrite (inv_counter c HI), wrap64_small by lia. lia.
Qed.

(** [IsDone()] is true exactly when no [Feed] call is between its
    increment and its send, the channel's buffer is empty and no worker
    is inside the callback or before its decrement (below 2^63 calls of
    [Feed]). *)
Theorem IsDone_iff_nothing_pending (c : Config T) :
  reachable c ->
  Z.of_nat (length (fed c)) < 2 ^ 63 ->
  IsDone (tm c) = true <->
  sending c = [] /\ buf (channel (tm c)) = [] /\
  running_items (goroutines c) = [] /\ decrementing_items (goroutines c) = [].
Proof.
  intros Hr Hb. pose proof (Inv_reachable c Hr) as HI.
  pose proof (pending_le_fed c HI) as Hp.
  unfold IsDone, LoadInt64. rewrite (inv_counter c HI), wrap64_small by lia.
  rewrite Z.eqb_eq. unfold pending in *. rewrite <- !length_zero_iff_nil. lia.
Qed.



(** ** Progress *)

Lemma running_lookup (ws : list (wstate T)) :
  running_items ws <> [] -> exists i x, ws !! i = Some (WRun x).
Proof.
  unfold running_items. induction ws as [|w ws IH]; [done|].
  rewrite bind_cons. intros Hne. destruct w as [|x|x|].
  - destruct IH as (i & y & Hi); [done|]. exists (S i), y. exact Hi.
  - exists 0%nat, x. reflexivity.
  - destruct IH as (i & y & Hi); [done|]. exists (S i), y. exact Hi.
  - destruct IH as (i & y & Hi); [done|]. exists (S i), y. exact Hi.
Qed.

Lemma decrementing_lookup (ws : list (wstate T)) :
  decrementing_items ws <> [] -> exists i x, ws !! i = Some (WDec x).
Proof.
  unfold decrementing_items. induction ws as [|w ws IH]; [done|].
  rewrite bind_cons. intros Hne. destruct w as [|x|x|].
  - destruct IH as (i & y & Hi); [done|]. exists (S i), y. exact Hi.
  - destruct IH as (i & y & Hi); [done|]. exists (S i), y. exact Hi.
  - exists 0%nat, x. reflexivity.
  - destruct IH as (i & y & Hi); [done|]. exists (S i), y. exact Hi.
Qed.

Lemma first_idle (ws : list (wstate T)) :
  ws <> [] -> running_items ws = [] -> decrementing_items ws = [] ->
  ws !! 0%nat <> Some WExit -> ws !! 0%nat = Some WIdle.
Proof.
  unfold running_items, decrementing_items.
  destruct ws as [|w ws]; [done|]. rewrite !bind_cons.
  destruct w; cbn; done.
Qed.

Ltac lengths_of_insert Hi w :=
  let P := fresh "P" in let Q := fresh "Q" in
  pose proof (bind_insert_length run_item _ _ _ w Hi) as P;
  pose proof (bind_insert_length dec_item _ _ _ w Hi) as Q;
  cbn [run_item dec_item length] in P, Q.

(** From a reachable configuration with worker goroutines, where no
    [Feed] is stuck at the send on a closed channel, some schedule
    empties the pending sends and the buffer and brings every worker
    back to its [range] loop, without new [Feed] calls. *)
Lemma drain_work (c : Config T) :
  reachable c -> crashed c = false -> goroutines c <> [] ->
  (closed (channel (tm c)) = false \/ sending c = []) ->
  exists c', rtc step c c' /\ crashed c' = false /\
    sending c' = [] /\ buf (channel (tm c')) = [] /\
    running_items (goroutines c') = [] /\ decrementing_items (goroutines c') = [] /\
    fed c' = fed c /\ closed (channel (tm c')) = closed (channel (tm c)).
Proof.
  remember (work_left c) as m eqn:Hm. revert c Hm.
  induction m as [m IH] using (well_founded_induction lt_wf).
  intros c Hm Hr Hc Hg Hsc.
  (* after one step [c1] of lower weight, the induction hypothesis *)
  assert (Hnext : forall c1, step c c1 -> (work_left c1 < m)%nat ->
            crashed c1 = false -> goroutines c1 <> [] ->
            (closed (channel (tm c1)) = false \/ sending c1 = []) ->
            fed c1 = fed c -> closed (channel (tm c1)) = closed (channel (tm c)) ->
            exists c', rtc step c c' /\ crashed c' = false /\
              sending c' = [] /\ buf (channel (tm c')) = [] /\
              running_items (goroutines c') = [] /\
              decrementing_items (goroutines c') = [] /\
              fed c' = fed c /\ closed (channel (tm c')) = closed (channel (tm c))).
  { intros c1 Hs Hlt Hc1 Hg1 Hsc1 Hf1 Hcl1.
    destruct (IH _ Hlt c1 eq_refl (reachable_rtc _ _ Hr (rtc_once _ _ Hs)) Hc1 Hg1 Hsc1)
      as (c' & Hr' & H').
    exists c'. split; [eapply rtc_l; eauto|]. intuition congruence. }
  pose proof (Shape_reachable c Hr) as [Hcap Hbuf Hw Hex].
  destruct (decide (running_items (goroutines c) = [])) as [Hrun|Hrun].
  2:{ (* a callback returns *)
    destruct (running_lookup _ Hrun) as (i & x & Hi).
    eapply Hnext; [apply (step_return c i x Hc Hi)|..]; try done.
    - subst m. unfold work_left, running_items, decrementing_items in *.
      cbn [sending tm goroutines]. lengths_of_insert Hi (WDec x). lia.
    - cbn [goroutines]. intros He. apply Hg.
      apply length_zero_iff_nil. rewrite <- (length_insert _ i (WDec x)), He. done. }
  destruct (decide (decrementing_items (goroutines c) = [])) as [Hdec|Hdec].
  2:{ (* a worker decrements *)
    destruct (decrementing_lookup _ Hdec) as (i & x & Hi).
    eapply Hnext; [apply (step_dec c i x Hc Hi)|..]; try done.
    - subst m. unfold work_left, running_items, decrementing_items in *.
      cbn [sending tm goroutines workerDec channel]. lengths_of_insert Hi (@WIdle T). lia.
    - cbn [goroutines]. intros He. apply Hg.
      apply length_zero_iff_nil. rewrite <- (length_insert _ i WIdle), He. done. }
  destruct (buf (channel (tm c))) as [|x rest] eqn:Hb.
  2:{ (* worker 0 receives *)
    assert (Hi : goroutines c !! 0%nat = Some WIdle).
    { apply first_idle; try done. intros Hj. destruct (Hex _ Hj) as [_ Hb0]. congruence. }
    eapply Hnext; [apply (step_recv c 0 x rest Hc Hi Hb)|..]; try done.
    - subst m. unfold work_left, running_items, decrementing_items in *.
      cbn [sending tm goroutines setChannel channel buf]. rewrite Hb.
      lengths_of_insert Hi (WRun x). cbn [length]. lia.
    - cbn [goroutines]. intros He. apply Hg.
      apply length_zero_iff_nil. rewrite <- (length_insert _ 0%nat (WRun x)), He. done. }
  destruct (sending c) as [|x sd] eqn:Hsd.
  - (* nothing left *)
    exists c. split; [apply rtc_refl|]. rewrite Hsd, Hb. done.
  - (* the first pending send goes through *)
    assert (Hcl : closed (channel (tm c)) = false) by (destruct Hsc; done).
    assert (Hroom : Z.of_nat (length (buf (channel (tm c)))) < cap (channel (tm c))).
    { rewrite Hb, Hcap. cbn. apply Hw, Hg. }
    assert (Hi : sending c !! 0%nat = Some x) by (rewrite Hsd; reflexivity).
    eapply Hnext; [apply (step_feed_send c 0 x Hc Hi Hcl Hroom)|..]; try done.
    + subst m. unfold work_left. cbn [sending tm goroutines setChannel channel buf].
      rewrite Hsd, Hb. cbn [delete list_delete length app]. lia.
    + cbn. left. reflexivity.
Qed.

Lemma bind_insert_perm_gen {A} (f : wstate T -> list A) (l : list (wstate T)) i w0 w :
  l !! i = Some w0 ->
  (<[i := w]> l ≫= f) ++ f w0 ≡ₚ (l ≫= f) ++ f w.
Proof.
  revert i. induction l as [|a l IH]; intros [|i] Hi; try discriminate.
  - injection Hi as ->. change (<[0 := w]> (w0 :: l)) with (w :: l).
    rewrite !bind_cons. solve_Permutation.
  - change (<[S i := w]> (a :: l)) with (a :: <[i := w]> l).
    rewrite !bind_cons, <- !(assoc_L app). apply Permutation_app_head.
    apply IH. exact Hi.
Qed.

Definition idle_unit (w : wstate T) : list unit :=
  match w with WIdle => [tt] | _ => [] end.

Lemma idle_lookup (ws : list (wstate T)) :
  ws ≫= idle_unit <> [] -> exists i, ws !! i = Some WIdle.
Proof.
  induction ws as [|w ws IH]; [done|]. rewrite bind_cons. intros Hne.
  destruct w; [exists 0%nat; reflexivity|..];
    destruct IH as [i Hi]; try done; exists (S i); exact Hi.
Qed.

Lemma all_exited (ws : list (wstate T)) :
  ws ≫= idle_unit = [] -> running_items ws = [] -> decrementing_items ws = [] ->
  Forall (fun w => w = WExit) ws.
Proof.
  unfold running_items, decrementing_items.
  induction ws as [|w ws IH]; [constructor|]. rewrite !bind_cons.
  destruct w; cbn; try discriminate. intros H1 H2 H3. constructor; auto.
Qed.

(** With the channel closed and drained, every idle worker leaves its
    loop; the pool itself is untouched. *)
Lemma exit_all (c : Config T) :
  crashed c = false -> closed (channel (tm c)) = true -> buf (channel (tm c)) = [] ->
  running_items (goroutines c) = [] -> decrementing_items (goroutines c) = [] ->
  exists c', rtc step c c' /\ Forall (fun w => w = WExit) (goroutines c') /\
    tm c' = tm c /\ fed c' = fed c /\ sending c' = sending c /\ sent c' = sent c /\
    dequeued c' = dequeued c /\ completed c' = completed c.
Proof.
  remember (length (goroutines c ≫= idle_unit)) as m eqn:Hm. revert c Hm.
  induction m as [m IH] using (well_founded_induction lt_wf).
  intros c Hm Hc Hcl Hb Hrun Hdec.
  destruct (decide (goroutines c ≫= idle_unit = [])) as [Hz|Hz].
  { exists c. split; [apply rtc_refl|]. split; [apply all_exited; done|]. done. }
  destruct (idle_lookup _ Hz) as [i Hi].
  pose proof (step_exit c i Hc Hi Hb Hcl) as Hs.
  pose proof (Permutation_length (bind_insert_perm_gen idle_unit _ _ _ WExit Hi)) as P.
  pose proof (bind_insert_perm run_item _ _ _ WExit Hi) as P1.
  pose proof (bind_insert_perm dec_item _ _ _ WExit Hi) as P2.
  cbn [idle_unit run_item dec_item] in P, P1, P2. rewrite !length_app in P.
  rewrite !app_nil_r in P1, P2. cbn [length] in P.
  unfold running_items, decrementing_items in *.
  pose (c1 := mkConfig (tm c) (<[i := WExit]> (goroutines c)) (sending c) false
                (fed c) (sent c) (dequeued c) (completed c)).
  assert (Hrun1 : goroutines c1 ≫= run_item = []).
  { apply Permutation_nil. cbn [c1 goroutines]. rewrite P1, Hrun. done. }
  assert (Hdec1 : goroutines c1 ≫= dec_item = []).
  { apply Permutation_nil. cbn [c1 goroutines]. rewrite P2, Hdec. done. }
  destruct (IH (length (goroutines c1 ≫= idle_unit)) ltac:(cbn [c1 goroutines]; lia)
              c1 eq_refl eq_refl Hcl Hb Hrun1 Hdec1) as (c' & Hr' & Hall & Ht & Hrest).
  exists c'. split; [eapply rtc_l; [exact Hs|exact Hr']|]. split; [exact Hall|].
  cbn in *. rewrite Ht. done.
Qed.

Lemma finished_counts (c : Config T) :
  Inv c -> sending c = [] -> buf (channel (tm c)) = [] ->
  running_items (goroutines c) = [] -> decrementing_items (goroutines c) = [] ->
  dequeued c ≡ₚ fed c /\ completed c ≡ₚ fed c /\ IsDone (tm c) = true.
Proof.
  intros [Hfed Hfifo Hdeq Hcnt _] Hs Hb Hrun Hdec.
  rewrite Hs in Hfed. rewrite Hb, app_nil_r in Hfifo.
  rewrite Hrun, app_nil_r in Hdeq. cbn in Hfed.
  split; [|split].
  - rewrite Hfed, Hfifo. done.
  - rewrite Hfed, Hfifo, Hdeq. done.
  - unfold IsDone, LoadInt64. rewrite Hcnt. unfold pending.
    rewrite Hs, Hb, Hrun, Hdec. reflexivity.
Qed.

(** A started pool whose channel is still open never deadlocks: from
    every reachable state, some schedule of its workers (with no new
    [Feed]) delivers every item fed so far, each one once, and brings
    the counter back to 0. *)
Theorem started_pool_completes_all (c : Config T) :
  reachable c -> crashed c = false ->
  closed (channel (tm c)) = false -> goroutines c <> [] ->
  exists c', rtc step c c' /\ fed c' = fed c /\
    dequeued c' ≡ₚ fed c /\ completed c' ≡ₚ fed c /\ IsDone (tm c') = true.
Proof.
  intros Hr Hc Hcl Hg.
  destruct (drain_work c Hr Hc Hg (or_introl Hcl))
    as (c' & Hr' & Hc' & Hs & Hb & Hrun & Hdec & Hf & _).
  destruct (finished_counts c' (Inv_reachable c' (reachable_rtc _ _ Hr Hr')) Hs Hb Hrun Hdec)
    as (H1 & H2 & H3).
  exists c'. rewrite <- Hf. auto.
Qed.

(** After [Stop()], once every [Feed] call has returned, the started
    workers still process every buffered item and then all leave their
    loops: some schedule reaches a state where every worker goroutine
    has exited, each fed item was processed once and [IsDone()] holds. *)
Theorem stopped_pool_drains_and_exits (c : Config T) :
  reachable c -> crashed c = false ->
  closed (channel (tm c)) = true -> sending c = [] -> goroutines c <> [] ->
  exists c', rtc step c c' /\ Forall (fun w => w = WExit) (goroutines c') /\
    completed c' ≡ₚ fed c /\ IsDone (tm c') = true.
Proof.
  intros Hr Hc Hcl Hsd Hg.
  destruct (drain_work c Hr Hc Hg (or_intror Hsd))
    as (c1 & Hr1 & Hc1 & Hs1 & Hb1 & Hrun1 & Hdec1 & Hf1 & Hcl1).
  rewrite Hcl in Hcl1.
  destruct (finished_counts c1 (Inv_reachable c1 (reachable_rtc _ _ Hr Hr1))
              Hs1 Hb1 Hrun1 Hdec1) as (_ & H2 & H3).
  destruct (exit_all c1 Hc1 Hcl1 Hb1 Hrun1 Hdec1)
    as (c' & Hr' & Hall & Ht & Hf & _ & _ & _ & Hcomp).
  exists c'. split; [etrans; eauto|]. split; [exact Hall|].
  rewrite Hcomp, Ht, <- Hf1. auto.
Qed.

Lemma crashed_stuck (c c' : Config T) :
  crashed c = true -> rtc step c c' -> c' = c.
Proof.
  intros Hc Hr. destruct Hr as [|c c1 c' Hs _]; [reflexivity|].
  exfalso. destruct Hs; congruence.
Qed.

Lemma closed_sending_grows (c c' : Config T) :
  closed (channel (tm c)) = true -> rtc step c c' -> crashed c' = false ->
  exists l, sending c' = sending c ++ l.
Proof.
  intros Hcl Hr. induction Hr as [c|c c1 c' Hs Hr IH]; intros Hc'.
  - exists []. by rewrite app_nil_r.
  - assert (H1 : crashed c1 = false /\ closed (channel (tm c1)) = true /\
                 exists l, sending c1 = sending c ++ l).
    { destruct Hs; cbn [tm channel closed sending crashed setChannel crash
                        feedInc workerDec] in *.
      all: try (split; [reflexivity|split; [assumption|exists []; by rewrite app_nil_r]]).
      - split; [reflexivity|split; [assumption|eauto]].
      - congruence.
      - rewrite (crashed_stuck (crash _) _ eq_refl Hr) in Hc'. discriminate.
      - revert H0. unfold Stop, closeChan. rewrite Hcl. discriminate.
      - rewrite (crashed_stuck (crash _) _ eq_refl Hr) in Hc'. discriminate. }
    destruct H1 as (Hc1 & Hcl1 & l1 & E1).
    destruct (IH Hcl1 Hc') as (l2 & E2). exists (l1 ++ l2).
    by rewrite E2, E1, app_assoc.
Qed.

(** A [Feed] whose send starts after [Stop()] never completes: the
    counter it incremented is never decremented again, so unless the
    program panics, [IsDone()] stays false from then on (below 2^63
    calls of [Feed]). *)
Theorem Feed_after_Stop_never_done (c c' : Config T) :
  reachable c -> closed (channel (tm c)) = true -> sending c <> [] ->
  rtc step c c' -> crashed c' = false ->
  Z.of_nat (length (fed c')) < 2 ^ 63 ->
  IsDone (tm c') = false.
Proof.
  intros Hr Hcl Hsnd Hr' Hc' Hb.
  destruct (closed_sending_grows c c' Hcl Hr' Hc') as (l & El).
  pose proof (Inv_reachable c' (reachable_rtc _ _ Hr Hr')) as HI.
  pose proof (pending_le_fed c' HI) as Hp.
  assert (Hs : (0 < length (sending c'))%nat).
  { rewrite El, length_app. destruct (sending c); [congruence|cbn; lia]. }
  unfold IsDone, LoadInt64. rewrite (inv_counter c' HI), wrap64_small by lia.
  apply Z.eqb_neq. unfold pending in *. lia.
Qed.

End PoolMore.

(** * Further properties of the UID helpers *)

Module UIDMore.
Import UIDs.

Ltac destruct16 b :=
  do 16 (destruct b as [|? b]; [discriminate|]);
  destruct b; [|discriminate].

Lemma validByte_alphabet (b : ascii) :
  validByte b = existsb (Ascii.eqb b) (list_ascii_of_string randChars).
Proof.
  destruct b as [b0 b1 b2 b3 b4 b5 b6 b7].
  destruct b0, b1, b2, b3, b4, b5, b6, b7; vm_compute; reflexivity.
Qed.

Lemma isValidLoop_forallb (u : UID) i n :
  (i + n <= length u)%nat ->
  isValidLoop u i n = forallb validByte (take n (drop i u)).
Proof.
  revert i. induction n as [|n IH]; intros i Hin; [reflexivity|].
  destruct (lookup_lt_is_Some_2 u i ltac:(lia)) as [b Hb].
  cbn [isValidLoop]. unfold UID. rewrite Hb, (drop_S _ _ _ Hb). cbn [take forallb].
  destruct (validByte b); [|reflexivity]. apply IH. lia.
Qed.

(** [IsValid()] accepts a UID exactly when each of its 16 bytes is one
    of the 64 characters of [randChars], the alphabet [NewUID] draws
    from. *)
Theorem IsValid_iff_randChars (u : UID) :
  length u = 16%nat ->
  IsValid u = true <-> Forall (fun b => In b (list_ascii_of_string randChars)) u.
Proof.
  intros Hu. unfold IsValid. rewrite isValidLoop_forallb by lia.
  rewrite drop_0, take_ge by lia. rewrite forallb_forall, List.Forall_forall.
  split; intros H b Hb; specialize (H b Hb).
  - rewrite validByte_alphabet, existsb_exists in H.
    destruct H as (b' & Hin & Heq). apply Ascii.eqb_eq in Heq. subst. exact Hin.
  - rewrite validByte_alphabet, existsb_exists. exists b. split; [exact H|].
    apply Ascii.eqb_refl.
Qed.

Lemma length_string_of_list_ascii (l : list ascii) :
  String.length (string_of_list_ascii l) = length l.
Proof. induction l; simpl; congruence. Qed.

(** A UID converted with [ToString()] and read back with
    [UIDFromString] is the same UID. *)
Theorem UIDFromString_ToString (u : UID) :
  length u = 16%nat -> UIDFromString (ToString u) = Some u.
Proof.
  intros Hu. unfold UIDFromString, ToString.
  rewrite take_ge by lia. rewrite length_string_of_list_ascii, Hu.
  cbn -[take]. rewrite list_ascii_of_string_of_list_ascii, take_ge by lia.
  reflexivity.
Qed.

(** [NewUID] writes, at position [k], the character of [randChars] at
    the [k]-th of [uidIndices]. *)
Lemma NewUID_indices r1 r2 r3 (b u : UID) :
  length b = 16%nat -> NewUID r1 r2 r3 b = Ok u ->
  Forall2 (fun e ch => strIndex randChars e = Ok ch) (uidIndices r1 r2 r3) u.
Proof.
  intros Hb Hu. unfold NewUID, setChar in Hu.
  repeat match type of Hu with
  | context [strIndex randChars ?e] =>
      let V := fresh "V" in let E := fresh "E" in let ch := fresh "ch" in
      destruct (UIDProofs.strIndex_ok e
                  ltac:(first [apply UIDProofs.land63_range
                              | apply UIDProofs.last_index_range]))
        as (ch & V & E);
      rewrite E in Hu
  end.
  cbn [mbind Go_bind mret Go_ret] in Hu.
  destruct16 b. cbn in Hu. injection Hu as <-.
  unfold uidIndices. repeat constructor; assumption.
Qed.

Lemma uidIndices_range r1 r2 r3 :
  Forall (fun e => 0 <= e < 64) (uidIndices r1 r2 r3).
Proof.
  unfold uidIndices.
  repeat constructor;
    first [apply UIDProofs.land63_range | apply UIDProofs.last_index_range].
Qed.

Lemma randChars_distinct_table :
  forallb (fun n => forallb (fun m =>
    match strIndex randChars (Z.of_nat n), strIndex randChars (Z.of_nat m) with
    | Ok a, Ok a' => negb (Ascii.eqb a a') || Nat.eqb n m
    | _, _ => false
    end) (seq 0 64)) (seq 0 64) = true.
Proof. vm_compute. reflexivity. Qed.

(** The 64 characters of [randChars] are pairwise distinct. *)
Lemma strIndex_randChars_inj e e' ch :
  0 <= e < 64 -> 0 <= e' < 64 ->
  strIndex randChars e = Ok ch -> strIndex randChars e' = Ok ch -> e = e'.
Proof.
  intros He He' H H'.
  assert (I : In (Z.to_nat e) (seq 0 64)) by (apply in_seq; lia).
  assert (I' : In (Z.to_nat e') (seq 0 64)) by (apply in_seq; lia).
  pose proof (proj1 (forallb_forall _ _) randChars_distinct_table _ I) as T.
  cbv beta in T.
  pose proof (proj1 (forallb_forall _ _) T _ I') as T'.
  cbv beta in T'. rewrite !Z2Nat.id in T' by lia.
  rewrite H, H', Ascii.eqb_refl in T'. cbn in T'.
  apply Nat.eqb_eq in T'. lia.
Qed.

Lemma Forall2_same_indices (xs ys : list Z) (u : UID) :
  Forall (fun e => 0 <= e < 64) xs -> Forall (fun e => 0 <= e < 64) ys ->
  Forall2 (fun e ch => strIndex randChars e = Ok ch) xs u ->
  Forall2 (fun e ch => strIndex randChars e = Ok ch) ys u ->
  xs = ys.
Proof.
  intros Rx Ry Hx. revert ys Ry. induction Hx as [|x ch xs u Hxc Hx IH];
    intros ys Ry Hy; inversion Hy as [|y ch' ys' u' Hyc Hy']; subst; [reflexivity|].
  inversion Rx; inversion Ry; subst. f_equal.
  - eapply strIndex_randChars_inj; eauto.
  - apply IH; auto.
Qed.

Lemma group_bits x y k m :
  0 <= k -> 0 <= m < 6 ->
  Z.land (Z.shiftr x k) 63 = Z.land (Z.shiftr y k) 63 ->
  Z.testbit x (m + k) = Z.testbit y (m + k).
Proof.
  intros Hk Hm E.
  apply (f_equal (fun v => Z.testbit v m)) in E.
  rewrite !Z.land_spec, !Z.shiftr_spec in E by lia.
  change 63 with (Z.ones 6) in E. rewrite Z.ones_spec_low in E by lia.
  rewrite !andb_true_r in E. exact E.
Qed.

(** Bit [m] of the last index is bit [30 + m mod 2] of [rnd1], [rnd2]
    or [rnd3], for [m] in [0,1], [2,3] and [4,5] respectively. *)
Lemma last_index_bit r1 r2 r3 m :
  0 <= m < 6 ->
  Z.testbit (Z.lor (Z.lor (Z.land (Z.shiftr r1 30) 3)
                          (Z.shiftl (Z.land (Z.shiftr r2 30) 3) 2))
                   (Z.shiftl (Z.land (Z.shiftr r3 30) 3) 4)) m =
  Z.testbit (if m <? 2 then r1 else if m <? 4 then r2 else r3) (30 + m mod 2).
Proof.
  intros Hm.
  assert (m = 0 \/ m = 1 \/ m = 2 \/ m = 3 \/ m = 4 \/ m = 5)
    as [-> | [-> | [-> | [-> | [-> | ->]]]]] by lia;
  rewrite !Z.lor_spec, !Z.shiftl_spec, !Z.land_spec, !Z.shiftr_spec by lia;
  cbn; rewrite ?andb_true_r, ?andb_false_r, ?orb_false_r, ?orb_false_l;
  reflexivity.
Qed.

Lemma uint32_eq_bits r s :
  0 <= r < 2 ^ 32 -> 0 <= s < 2 ^ 32 ->
  (forall n, 0 <= n < 32 -> Z.testbit r n = Z.testbit s n) -> r = s.
Proof.
  intros Hr Hs H. apply Z.bits_inj'. intros n Hn.
  destruct (Z.lt_ge_cases n 32) as [Hlt|Hge]; [apply H; lia|].
  rewrite <- (Z.mod_small r (2 ^ 32)), <- (Z.mod_small s (2 ^ 32)) by lia.
  rewrite !Z.mod_pow2_bits_high by lia. reflexivity.
Qed.

Lemma rnd_from_parts x y :
  0 <= x < 2 ^ 32 -> 0 <= y < 2 ^ 32 ->
  Z.land x 63 = Z.land y 63 ->
  Z.land (Z.shiftr x 6) 63 = Z.land (Z.shiftr y 6) 63 ->
  Z.land (Z.shiftr x 12) 63 = Z.land (Z.shiftr y 12) 63 ->
  Z.land (Z.shiftr x 18) 63 = Z.land (Z.shiftr y 18) 63 ->
  Z.land (Z.shiftr x 24) 63 = Z.land (Z.shiftr y 24) 63 ->
  Z.testbit x 30 = Z.testbit y 30 -> Z.testbit x 31 = Z.testbit y 31 ->
  x = y.
Proof.
  intros Hx Hy E0 E6 E12 E18 E24 B30 B31.
  rewrite <- (Z.shiftr_0_r x), <- (Z.shiftr_0_r y) in E0.
  apply uint32_eq_bits; [exact Hx|exact Hy|]. intros n Hn.
  assert (n < 6 \/ 6 <= n < 12 \/ 12 <= n < 18 \/ 18 <= n < 24 \/
          24 <= n < 30 \/ n = 30 \/ n = 31)
    as [H|[H|[H|[H|[H|[->| ->]]]]]] by lia; try assumption.
  - replace n with ((n - 0) + 0) by lia. apply group_bits; [lia|lia|exact E0].
  - replace n with ((n - 6) + 6) by lia. apply group_bits; [lia|lia|exact E6].
  - replace n with ((n - 12) + 12) by lia. apply group_bits; [lia|lia|exact E12].
  - replace n with ((n - 18) + 18) by lia. apply group_bits; [lia|lia|exact E18].
  - replace n with ((n - 24) + 24) by lia. apply group_bits; [lia|lia|exact E24].
Qed.

(** Distinct triples of [uint32] values from [Fastrand()] give distinct
    UIDs: [NewUID] uses all 96 bits, 6 per character, so there are
    2^96 possible UIDs. *)
Theorem NewUID_injective (r1 r2 r3 s1 s2 s3 : Z) (b b' u : UID) :
  0 <= r1 < 2 ^ 32 -> 0 <= r2 < 2 ^ 32 -> 0 <= r3 < 2 ^ 32 ->
  0 <= s1 < 2 ^ 32 -> 0 <= s2 < 2 ^ 32 -> 0 <= s3 < 2 ^ 32 ->
  length b = 16%nat -> length b' = 16%nat ->
  NewUID r1 r2 r3 b = Ok u -> NewUID s1 s2 s3 b' = Ok u ->
  r1 = s1 /\ r2 = s2 /\ r3 = s3.
Proof.
  intros R1 R2 R3 S1 S2 S3 Hb Hb' Hu Hu'.
  assert (E : uidIndices r1 r2 r3 = uidIndices s1 s2 s3).
  { eapply Forall2_same_indices;
      [apply uidIndices_range | apply uidIndices_range
      | exact (NewUID_indices _ _ _ _ _ Hb Hu)
      | exact (NewUID_indices _ _ _ _ _ Hb' Hu')]. }
  unfold uidIndices in E.
  injection E as E1 E2 E3 E4 E5 E6 E7 E8 E9 E10 E11 E12 E13 E14 E15 E16.
  pose proof (fun m => f_equal (fun v => Z.testbit v m) E16) as L.
  cbv beta in L.
  pose proof (L 0) as L0; pose proof (L 1) as L1; pose proof (L 2) as L2;
  pose proof (L 3) as L3; pose proof (L 4) as L4; pose proof (L 5) as L5.
  rewrite !last_index_bit in L0, L1, L2, L3, L4, L5 by lia. cbn in L0, L1, L2, L3, L4, L5.
  split; [|split]; apply rnd_from_parts; auto.
Qed.

End UIDMore.

(** ** Instances of the further properties *)

Lemma early_stop_reachable : reachable early_stop_config.
Proof.
  exists 2, demo_cb, demo_tm. split; [exact demo_new|].
  apply (run_sound _ _ early_stop_schedule). vm_compute. reflexivity.
Qed.

Lemma counter_between_zero_and_fed_witness :
  Z.of_nat (length (fed (demo_config 10))) < 2 ^ 63 /\
  0 <= counter (tm (demo_config 10)) <= Z.of_nat (length (fed (demo_config 10))).
Proof.
  split; [vm_compute; reflexivity|].
  apply counter_between_zero_and_fed; [apply demo_reachable | vm_compute; reflexivity].
Defined.

Lemma IsDone_iff_nothing_pending_witness :
  Z.of_nat (length (fed (demo_config 10))) < 2 ^ 63 /\
  (IsDone (tm (demo_config 10)) = true <->
   sending (demo_config 10) = [] /\ buf (channel (tm (demo_config 10))) = [] /\
   running_items (goroutines (demo_config 10)) = [] /\
   decrementing_items (goroutines (demo_config 10)) = []).
Proof.
  split; [vm_compute; reflexivity|].
  apply IsDone_iff_nothing_pending; [apply demo_reachable | vm_compute; reflexivity].
Defined.



Lemma started_pool_completes_all_witness :
  crashed (demo_config 10) = false /\ closed (channel (tm (demo_config 10))) = false /\
  goroutines (demo_config 10) <> [] /\
  exists c', rtc step (demo_config 10) c' /\ fed c' = fed (demo_config 10) /\
    dequeued c' ≡ₚ fed (demo_config 10) /\ completed c' ≡ₚ fed (demo_config 10) /\
    IsDone (tm c') = true.
Proof.
  assert (H1 : crashed (demo_config 10) = false) by (vm_compute; reflexivity).
  assert (H2 : closed (channel (tm (demo_config 10))) = false) by (vm_compute; reflexivity).
  assert (H3 : goroutines (demo_config 10) <> []) by (vm_compute; discriminate).
  split; [exact H1|]. split; [exact H2|]. split; [exact H3|].
  exact (started_pool_completes_all _ (demo_reachable 10) H1 H2 H3).
Defined.

Lemma stopped_pool_drains_and_exits_witness :
  crashed early_stop_config = false /\ closed (channel (tm early_stop_config)) = true /\
  sending early_stop_config = [] /\ goroutines early_stop_config <> [] /\
  exists c', rtc step early_stop_config c' /\ Forall (fun w => w = WExit) (goroutines c') /\
    completed c' ≡ₚ fed early_stop_config /\ IsDone (tm c') = true.
Proof.
  assert (H1 : crashed early_stop_config = false) by (vm_compute; reflexivity).
  assert (H2 : closed (channel (tm early_stop_config)) = true) by (vm_compute; reflexivity).
  assert (H3 : sending early_stop_config = []) by (vm_compute; reflexivity).
  assert (H4 : goroutines early_stop_config <> []) by (vm_compute; discriminate).
  split; [exact H1|]. split; [exact H2|]. split; [exact H3|]. split; [exact H4|].
  exact (stopped_pool_drains_and_exits _ early_stop_reachable H1 H2 H3 H4).
Defined.

Lemma IsValid_iff_randChars_witness :
  length demo_uid = 16%nat /\
  (UIDs.IsValid demo_uid = true <->
   Forall (fun b => In b (list_ascii_of_string UIDs.randChars)) demo_uid).
Proof.
  split; [vm_compute; reflexivity|].
  apply UIDMore.IsValid_iff_randChars. vm_compute. reflexivity.
Defined.

Lemma UIDFromString_ToString_witness :
  length demo_uid = 16%nat /\
  UIDs.UIDFromString (UIDs.ToString demo_uid) = Some demo_uid.
Proof.
  split; [vm_compute; reflexivity|].
  apply UIDMore.UIDFromString_ToString. vm_compute. reflexivity.
Defined.

Lemma NewUID_injective_witness :
  UIDs.NewUID 4294967295 123456789 2147483648 demo_uid_buf = Ok demo_uid /\
  UIDs.NewUID 4294967295 123456789 2147483648 (repeat "z"%char 16) = Ok demo_uid /\
  (4294967295 = 4294967295 /\ 123456789 = 123456789 /\ 2147483648 = 2147483648).
Proof.
  assert (H1 : UIDs.NewUID 4294967295 123456789 2147483648 demo_uid_buf = Ok demo_uid)
    by (vm_compute; reflexivity).
  assert (H2 : UIDs.NewUID 4294967295 123456789 2147483648 (repeat "z"%char 16) = Ok demo_uid)
    by (vm_compute; reflexivity).
  split; [exact H1|]. split; [exact H2|].
  apply (UIDMore.NewUID_injective 4294967295 123456789 2147483648
           4294967295 123456789 2147483648 demo_uid_buf (repeat "z"%char 16) demo_uid);
    [lia | lia | lia | lia | lia | lia | reflexivity | reflexivity | exact H1 | exact H2].
Defined.

Lemma late_feed_reachable : reachable late_feed_config.
Proof.
  exists 2, demo_cb, demo_tm. split; [exact demo_new|].
  apply (run_sound _ _ (early_stop_schedule ++ [CFeed "c"%string])).
  vm_compute. reflexivity.
Qed.

Lemma Feed_after_Stop_never_done_witness :
  closed (channel (tm late_feed_config)) = true /\ sending late_feed_config <> [] /\
  rtc step late_feed_config late_feed_drained /\
  crashed late_feed_drained = false /\
  Z.of_nat (length (fed late_feed_drained)) < 2 ^ 63 /\
  IsDone (tm late_feed_drained) = false.
Proof.
  assert (H1 : closed (channel (tm late_feed_config)) = true) by (vm_compute; reflexivity).
  assert (H2 : sending late_feed_config <> []) by (vm_compute; discriminate).
  assert (Hr : rtc step late_feed_config late_feed_drained)
    by (apply (run_sound _ _ late_feed_drain_schedule); vm_compute; reflexivity).
  assert (H3 : crashed late_feed_drained = false) by (vm_compute; reflexivity).
  assert (H4 : Z.of_nat (length (fed late_feed_drained)) < 2 ^ 63) by (vm_compute; reflexivity).
  split; [exact H1|]. split; [exact H2|]. split; [exact Hr|]. split; [exact H3|].
  split; [exact H4|].
  exact (Feed_after_Stop_never_done _ _ late_feed_reachable H1 H2 Hr H3 H4).
Defined.
